(** * Command dispatch core of agent_manage

    Shallow embedding of

    - the Redis-backed priority queue [CommandQueue]
      (docs/architecture-design.md, section 4.1: [push_command] with
      [score = priority * 1000000 + time.time()] and [ZADD], and
      [pop_command] with [ZPOPMAX]);
    - the command record state machine, the timeout and retry monitor,
      command creation and the group fan-out coordinator, whose server code
      is not part of the sources: these are modelled from the spec and
      marked as such. *)

From Stdlib Require Import ZArith List String Bool Lia Sorting.Sorted
  Sorting.Permutation.
Import ListNotations.
Open Scope Z_scope.

(* ================================================================== *)
(** ** Redis sorted sets *)

Module ZSet.

(** A member of a sorted set is the JSON text [json.dumps(command)];
    the Python code gets the command back with [json.loads], which we take
    as the inverse of [json.dumps], so a command is represented by its
    JSON text. *)
Definition member := string.

(** A sorted set: each member once, with its score.  Scores are doubles
    in Redis; the scores built by [push_command] from integral epoch
    seconds and priorities in [0,100] are integers below 2^53, for which
    double addition is exact, so they are modelled as [Z]. *)
Definition zset := list (member * Z).

(** [ZADD key {member: score}]: a member already present gets its score
    updated, a new member is added. *)
Fixpoint zadd (z : zset) (m : member) (s : Z) : zset :=
  match z with
  | [] => [(m, s)]
  | (m', s') :: r =>
      if String.eqb m m' then (m, s) :: r else (m', s') :: zadd r m s
  end.

(** Redis orders a sorted set by score, equal scores by the
    lexicographic order of the members. [zgt a b]: [a] comes after [b]. *)
Definition zgt (a b : member * Z) : bool :=
  (snd b <? snd a)
  || ((snd a =? snd b) && String.ltb (fst b) (fst a)).

(** The last element of the order, i.e. the one [ZPOPMAX] returns. *)
Fixpoint zmax (best : member * Z) (z : zset) : member * Z :=
  match z with
  | [] => best
  | e :: r => zmax (if zgt e best then e else best) r
  end.

Definition zrem (m : member) (z : zset) : zset :=
  filter (fun e => negb (String.eqb (fst e) m)) z.

(** [ZPOPMAX key]: atomically removes and returns the element with the
    highest score; on an empty (or absent) key it returns an empty reply
    and writes nothing. *)
Definition zpopmax (z : zset) : option (member * Z) * zset :=
  match z with
  | [] => (None, z)
  | e :: r => let b := zmax e r in (Some b, zrem (fst b) z)
  end.

End ZSet.

(* ================================================================== *)
(** ** [CommandQueue] *)

Module CommandQueue.
Import ZSet.

(** The Redis keyspace as seen by the queue: key [cmd:{agent_id}] for
    each agent; an absent key reads as the empty sorted set. *)
Definition store := string -> zset.

Definition empty_store : store := fun _ => [].

Definition upd (st : store) (agent_id : string) (z : zset) : store :=
  fun a => if String.eqb a agent_id then z else st a.

(** [push_command(agent_id, command, priority)], with [now] the value
    of [time.time()] at the call (epoch seconds). *)
Definition push_command (st : store) (agent_id : string) (command : member)
    (priority : Z) (now : Z) : store :=
  let score := priority * 1000000 + now in
  upd st agent_id (zadd (st agent_id) command score).

(** The decoding half of [pop_command]:
    [if result: return json.loads(result[0][0])] else [None]. *)
Definition decode (result : option (member * Z)) : option member :=
  match result with
  | Some (m, _) => Some m
  | None => None
  end.

(** The Redis half of [pop_command]: [ZPOPMAX cmd:{agent_id}], one
    atomic server command.  An empty reply writes nothing. *)
Definition zpopmax_key (st : store) (agent_id : string)
    : option (member * Z) * store :=
  match zpopmax (st agent_id) with
  | (Some e, z') => (Some e, upd st agent_id z')
  | (None, _) => (None, st)
  end.

Definition pop_command (st : store) (agent_id : string)
    : option member * store :=
  let (result, st') := zpopmax_key st agent_id in (decode result, st').

End CommandQueue.

(* ================================================================== *)
(** ** Two concurrent pollers *)

Module Pollers.
Import ZSet CommandQueue.

(** A call of [pop_command] runs in two steps: the awaited [ZPOPMAX]
    round trip, executed atomically by the Redis server, and then the
    local decoding of its reply in the caller's coroutine. *)
Inductive call :=
| Start
| Replied (r : option (member * Z))
| Returned (v : option member).

Record config := mkConfig { c_store : store; c_t1 : call; c_t2 : call }.

(** Any interleaving of the steps of the two callers. *)
Inductive tstep (agent_id : string) : config -> config -> Prop :=
| T1_pop st t2 r st' :
    zpopmax_key st agent_id = (r, st') ->
    tstep agent_id (mkConfig st Start t2) (mkConfig st' (Replied r) t2)
| T1_decode st t2 r :
    tstep agent_id (mkConfig st (Replied r) t2)
      (mkConfig st (Returned (decode r)) t2)
| T2_pop st t1 r st' :
    zpopmax_key st agent_id = (r, st') ->
    tstep agent_id (mkConfig st t1 Start) (mkConfig st' t1 (Replied r))
| T2_decode st t1 r :
    tstep agent_id (mkConfig st t1 (Replied r))
      (mkConfig st t1 (Returned (decode r))).

Inductive reachable (agent_id : string) (c0 : config) : config -> Prop :=
| R_refl : reachable agent_id c0 c0
| R_step c c' :
    reachable agent_id c0 c -> tstep agent_id c c' ->
    reachable agent_id c0 c'.

End Pollers.

(* ================================================================== *)
(** ** Command records and their state machine *)

Module Commands.
Local Open Scope string_scope.

(** [CommandStatus] (frontend/src/types/mcp.ts). *)
Inductive command_status :=
| pending | executing | success | error | timeout | cancelled.

Definition status_name (s : command_status) : string :=
  match s with
  | pending => "pending" | executing => "executing" | success => "success"
  | error => "error" | timeout => "timeout" | cancelled => "cancelled"
  end.

(** The command record ([Command], frontend/src/types/mcp.ts); times are
    epoch seconds. *)
Record command := mkCommand {
  id : nat;
  agent_id : string;
  cmd_type : string;
  content : string;
  status : command_status;
  priority : Z;
  timeout_s : Z;
  output : option string;
  progress : Z;
  progress_message : option string;
  error_message : option string;
  retry_count : nat;
  max_retries : nat;
  created_at : Z;
  started_at : option Z;
  completed_at : option Z;
  updated_at : Z
}.

(** Record updates used by the transitions. *)
Definition set_status (c : command) (s : command_status) (now : Z) : command :=
  {| id := id c; agent_id := agent_id c; cmd_type := cmd_type c;
     content := content c; status := s; priority := priority c;
     timeout_s := timeout_s c; output := output c; progress := progress c;
     progress_message := progress_message c;
     error_message := error_message c; retry_count := retry_count c;
     max_retries := max_retries c; created_at := created_at c;
     started_at := started_at c; completed_at := completed_at c;
     updated_at := now |}.

Definition set_started (c : command) (now : Z) : command :=
  {| id := id c; agent_id := agent_id c; cmd_type := cmd_type c;
     content := content c; status := status c; priority := priority c;
     timeout_s := timeout_s c; output := output c; progress := progress c;
     progress_message := progress_message c;
     error_message := error_message c; retry_count := retry_count c;
     max_retries := max_retries c; created_at := created_at c;
     started_at := Some now; completed_at := completed_at c;
     updated_at := updated_at c |}.

Definition set_completed (c : command) (now : Z) : command :=
  {| id := id c; agent_id := agent_id c; cmd_type := cmd_type c;
     content := content c; status := status c; priority := priority c;
     timeout_s := timeout_s c; output := output c; progress := progress c;
     progress_message := progress_message c;
     error_message := error_message c; retry_count := retry_count c;
     max_retries := max_retries c; created_at := created_at c;
     started_at := started_at c; completed_at := Some now;
     updated_at := updated_at c |}.

Definition set_progress (c : command) (p : Z) (msg : option string) : command :=
  {| id := id c; agent_id := agent_id c; cmd_type := cmd_type c;
     content := content c; status := status c; priority := priority c;
     timeout_s := timeout_s c; output := output c; progress := p;
     progress_message := msg; error_message := error_message c;
     retry_count := retry_count c; max_retries := max_retries c;
     created_at := created_at c; started_at := started_at c;
     completed_at := completed_at c; updated_at := updated_at c |}.

Definition set_output (c : command) (out err : option string) : command :=
  {| id := id c; agent_id := agent_id c; cmd_type := cmd_type c;
     content := content c; status := status c; priority := priority c;
     timeout_s := timeout_s c; output := out; progress := progress c;
     progress_message := progress_message c; error_message := err;
     retry_count := retry_count c; max_retries := max_retries c;
     created_at := created_at c; started_at := started_at c;
     completed_at := completed_at c; updated_at := updated_at c |}.

Definition incr_retry (c : command) : command :=
  {| id := id c; agent_id := agent_id c; cmd_type := cmd_type c;
     content := content c; status := status c; priority := priority c;
     timeout_s := timeout_s c; output := output c; progress := progress c;
     progress_message := progress_message c;
     error_message := error_message c; retry_count := S (retry_count c);
     max_retries := max_retries c; created_at := created_at c;
     started_at := started_at c; completed_at := completed_at c;
     updated_at := updated_at c |}.

(** Events of the state machine: worker claims, progress reports and
    results, cancel and retry requests, and the deadline events raised
    by the monitor. *)
Inductive event :=
| Claim (now : Z)
| Progress (now : Z) (p : Z) (msg : option string)
| Result_success (now : Z) (out : option string)
| Result_error (now : Z) (msg : option string)
| Cancel (now : Z)
| Retry (now : Z)
| Deadline_exceeded (now : Z).

Inductive transition_error := InvalidTransitionError (reason : string).

(** Modelled from the spec: the server-side command state machine
    (section 4.3; the backend is not among the sources).  Terminal: success,
    cancelled, and error or timeout once the retry budget is exhausted. *)
Definition is_terminal (c : command) : bool :=
  match status c with
  | success | cancelled => true
  | error | timeout => Nat.leb (max_retries c) (retry_count c)
  | pending | executing => false
  end.

(** Modelled from the spec: the guarded transition primitive
    [update_status(id, transition)] of section 4.3 and its transition
    table. *)
Definition transition (c : command) (e : event)
    : command + transition_error :=
  if is_terminal c then
    inr (InvalidTransitionError
           ("already in terminal state: " ++ status_name (status c)))
  else
  match status c, e with
  | pending, Claim now => inl (set_started (set_status c executing now) now)
  | executing, Progress now p msg =>
      inl (set_progress (set_status c executing now) p msg)
  | executing, Result_success now out =>
      inl (set_completed
             (set_output (set_status c success now) out (error_message c)) now)
  | executing, Result_error now msg =>
      inl (set_completed
             (set_output (set_status c error now) (output c) msg) now)
  | (pending | executing), Deadline_exceeded now =>
      if Nat.ltb (retry_count c) (max_retries c)
      then inl (incr_retry (set_progress (set_status c pending now) 0 None))
      else inl (set_completed (set_status c timeout now) now)
  | (pending | executing), Cancel now =>
      inl (set_completed (set_status c cancelled now) now)
  | (error | timeout), Retry now =>
      if Nat.ltb (retry_count c) (max_retries c)
      then inl (incr_retry (set_progress (set_status c pending now) 0 None))
      else inr (InvalidTransitionError "retry budget exhausted")
  | s, _ => inr (InvalidTransitionError
                  ("invalid transition from " ++ status_name s))
  end.

(** A guarded update of the stored record: a rejected transition leaves
    the record as it was and reports the error. *)
Definition update_status (c : command) (e : event)
    : command * option transition_error :=
  match transition c e with
  | inl c' => (c', None)
  | inr err => (c, Some err)
  end.

(** Modelled from the spec: one sweep of the Timeout & Retry Monitor over
    a record (section 4.4), with the deadline anchored at creation
    (section 9).  On the retry path the monitor also re-enqueues the
    command, which touches only the queue. *)
Definition overdue (now : Z) (c : command) : bool :=
  (timeout_s c <? now - created_at c)%Z.

Definition sweep_one (now : Z) (c : command) : command :=
  match status c with
  | pending | executing =>
      if overdue now c then fst (update_status c (Deadline_exceeded now))
      else c
  | _ => c
  end.

(** Everything that can happen to a record: an event sent through the
    guarded primitive, or a sweep of the monitor. *)
Inductive op := Ev (e : event) | Sweep (now : Z).

Definition run_op (c : command) (o : op) : command :=
  match o with
  | Ev e => fst (update_status c e)
  | Sweep now => sweep_one now c
  end.

Definition run (c : command) (ops : list op) : command :=
  fold_left run_op ops c.

End Commands.

(* ================================================================== *)
(** ** Command creation *)

Module Creation.
Import Commands.
Local Open Scope string_scope.

(** The body of [POST /commands] ([CommandCreate],
    frontend/src/types/mcp.ts, with the target agent). *)
Record create_request := mkRequest {
  req_agent_id : string;
  req_type : string;
  req_content : string;
  req_priority : option Z;
  req_timeout : option Z;
  req_max_retries : option nat
}.

Inductive validation_error := ValidationError (reason : string).

Definition command_types : list string :=
  ["pause"; "cancel"; "task"; "config_reload"; "status_check"].

(** Defaults of the optional fields (README: priority 0, timeout 300,
    max_retries 3). *)
Definition req_priority_or_default (r : create_request) : Z :=
  match req_priority r with Some p => p | None => 0%Z end.

Definition req_timeout_or_default (r : create_request) : Z :=
  match req_timeout r with Some t => t | None => 300%Z end.

Definition req_max_retries_or_default (r : create_request) : nat :=
  match req_max_retries r with Some n => n | None => 3%nat end.

(** Modelled from the spec: the validation of [POST /commands]
    (sections 6 and 7; the backend is not among the sources): a known
    type, [priority] in [0,100] and a positive [timeout]. *)
Definition validate (r : create_request) : option validation_error :=
  let p := req_priority_or_default r in
  let t := req_timeout_or_default r in
  if negb (existsb (String.eqb (req_type r)) command_types)
  then Some (ValidationError "invalid command type")
  else if negb ((0 <=? p) && (p <=? 100))%Z
  then Some (ValidationError "priority must be in [0,100]")
  else if (t <=? 0)%Z
  then Some (ValidationError "timeout must be positive")
  else None.

(** Modelled from the spec: the record written at creation (status
    pending, no retries yet). *)
Definition new_command (new_id : nat) (r : create_request) (now : Z)
    : command :=
  {| id := new_id; agent_id := req_agent_id r; cmd_type := req_type r;
     content := req_content r; status := pending;
     priority := req_priority_or_default r;
     timeout_s := req_timeout_or_default r; output := None;
     progress := 0%Z; progress_message := None; error_message := None;
     retry_count := 0; max_retries := req_max_retries_or_default r;
     created_at := now; started_at := None; completed_at := None;
     updated_at := now |}.

(** Modelled from the spec: [create(command) -> id] of the record store,
    behind [POST /commands]; ids are handed out in sequence. *)
Definition create (records : list command) (r : create_request) (now : Z)
    : list command * (nat + validation_error) :=
  match validate r with
  | Some err => (records, inr err)
  | None =>
      let new_id := S (List.length records) in
      (app records [new_command new_id r now], inl new_id)
  end.

(** A request that passes validation: a known type, a priority in
    [0,100] and a positive timeout (after defaults). *)
Definition valid_request (r : create_request) : Prop :=
  In (req_type r) command_types
  /\ (0 <= req_priority_or_default r <= 100)%Z
  /\ (0 < req_timeout_or_default r)%Z.

End Creation.

(* ================================================================== *)
(** ** Group fan-out coordinator *)

Module Fanout.

(** [AgentGroupMember] (frontend/src/types/index.ts). *)
Record group_member := mkMember {
  member_id : string;
  member_agent_id : string;
  member_priority : Z
}.

(** What one member dispatch ends with. *)
Inductive outcome := Ok (out : string) | Failed (msg : string).

Inductive group_status := completed | failed.

(** Modelled from the spec: the order of a sequential group, ascending
    member priority (section 4.5); members of equal priority keep their
    order. *)
Fixpoint insert_member (m : group_member) (l : list group_member)
    : list group_member :=
  match l with
  | [] => [m]
  | x :: r =>
      if (member_priority m <? member_priority x)%Z then m :: x :: r
      else x :: insert_member m r
  end.

Definition sort_members (ms : list group_member) : list group_member :=
  fold_left (fun acc m => insert_member m acc) ms [].

(** Modelled from the spec: the sequential mode of
    [execute_group(group, input)] (section 4.5).  [execute] dispatches one
    member and waits for its terminal outcome; [feed] builds the input of
    the next member from the current input and the output just produced.
    The log lists the dispatched members, in dispatch order, with their
    outcomes. *)
Fixpoint run_sequential (execute : group_member -> string -> outcome)
    (feed : string -> string -> string) (ms : list group_member)
    (input : string) : group_status * list (group_member * outcome) :=
  match ms with
  | [] => (completed, [])
  | m :: rest =>
      match execute m input with
      | Ok out =>
          let (st, log) := run_sequential execute feed rest (feed input out) in
          (st, (m, Ok out) :: log)
      | Failed msg => (failed, [(m, Failed msg)])
      end
  end.

Definition execute_group_sequential
    (execute : group_member -> string -> outcome)
    (feed : string -> string -> string) (ms : list group_member)
    (input : string) : group_status * list (group_member * outcome) :=
  run_sequential execute feed (sort_members ms) input.

Definition is_ok (o : outcome) : bool :=
  match o with Ok _ => true | Failed _ => false end.

End Fanout.

(* ================================================================== *)
(** ** The commands page (CommandsPage, frontend) *)

Module CommandsPage.
Import Commands Creation.
Local Open Scope string_scope.

(** The retry action of a row:
    [['error', 'timeout'].includes(record.status)
     && record.retry_count < record.max_retries]. *)
Definition shows_retry (c : command) : bool :=
  match status c with
  | error | timeout => Nat.ltb (retry_count c) (max_retries c)
  | _ => false
  end.

(** The cancel action of a row:
    [['pending', 'executing'].includes(record.status)]. *)
Definition shows_cancel (c : command) : bool :=
  match status c with
  | pending | executing => true
  | _ => false
  end.






End CommandsPage.

(* ================================================================== *)
(** ** The agent store (frontend/src/stores/agentStore.ts) *)

Module AgentStore.

(** The fields of [Agent] and [Execution] (frontend/src/types) that the
    store reads or that tell records apart. *)
Record agent := mkAgent {
  agent_id : string;
  agent_name : string;
  enabled : bool
}.

Record execution := mkExecution {
  execution_id : string;
  execution_status : string
}.

(** The store's state. *)
Record state := mkState {
  agents : list agent;
  executions : list execution;
  currentExecution : option execution;
  loading : bool;
  error : option string
}.

(** What an awaited API call gives: its value, or a rejection whose
    [error.message] the store keeps. *)
Inductive api (A : Type) := Resolved (x : A) | Rejected (message : string).
Arguments Resolved {A} x.
Arguments Rejected {A} message.

(** zustand's [set] with one field. *)
Definition set_agents (s : state) (l : list agent) : state :=
  mkState l (executions s) (currentExecution s) (loading s) (error s).
Definition set_executions (s : state) (l : list execution) : state :=
  mkState (agents s) l (currentExecution s) (loading s) (error s).
Definition set_current (s : state) (e : option execution) : state :=
  mkState (agents s) (executions s) e (loading s) (error s).
Definition set_loading (s : state) (b : bool) : state :=
  mkState (agents s) (executions s) (currentExecution s) b (error s).
Definition set_error (s : state) (e : option string) : state :=
  mkState (agents s) (executions s) (currentExecution s) (loading s) e.

(** [set({ loading: true, error: null })], done before each request. *)
Definition begin_request (s : state) : state :=
  set_error (set_loading s true) None.

(** [agents.map((a) => (a.id === id ? agent : a))]. *)
Definition replace_agent (id : string) (x : agent) (l : list agent)
    : list agent :=
  map (fun a => if String.eqb (agent_id a) id then x else a) l.

(** [executions.map((e) => (e.id === id ? execution : e))]. *)
Definition replace_execution (id : string) (x : execution)
    (l : list execution) : list execution :=
  map (fun e => if String.eqb (execution_id e) id then x else e) l.

(** Each action, from the state when it is called and the outcome of its
    API call, to the state once it has finished (the [get()] after the
    [await] is taken to see no other action in between) and what its
    promise gives its caller. *)
Definition fetchAgents (s : state) (r : api (list agent)) : state :=
  let s1 := begin_request s in
  match r with
  | Resolved items => set_loading (set_agents s1 items) false
  | Rejected m => set_loading (set_error s1 (Some m)) false
  end.

Definition createAgent (s : state) (r : api agent) : state * api agent :=
  let s1 := begin_request s in
  match r with
  | Resolved a => (set_loading (set_agents s1 (a :: agents s1)) false, r)
  | Rejected m => (set_loading (set_error s1 (Some m)) false, r)
  end.


Definition deleteAgent (s : state) (id : string) (r : api unit)
    : state * api unit :=
  let s1 := begin_request s in
  match r with
  | Resolved _ =>
      (set_loading
         (set_agents s1
            (filter (fun a => negb (String.eqb (agent_id a) id)) (agents s1)))
         false, r)
  | Rejected m => (set_loading (set_error s1 (Some m)) false, r)
  end.

(** [toggleAgent] neither sets [loading] nor clears [error], and does not
    rethrow. *)
Definition toggleAgent (s : state) (id : string) (r : api agent) : state :=
  match r with
  | Resolved a => set_agents s (replace_agent id a (agents s))
  | Rejected m => set_error s (Some m)
  end.

Definition executeAgent (s : state) (r : api execution)
    : state * api execution :=
  let s1 := begin_request s in
  match r with
  | Resolved e =>
      (set_loading (set_current (set_executions s1 (e :: executions s1))
                      (Some e)) false, r)
  | Rejected m => (set_loading (set_error s1 (Some m)) false, r)
  end.

(** [currentExecution?.id === id ? execution : currentExecution]. *)
Definition cancelExecution (s : state) (id : string) (r : api execution)
    : state :=
  match r with
  | Resolved e =>
      set_current (set_executions s (replace_execution id e (executions s)))
        (match currentExecution s with
         | Some c => if String.eqb (execution_id c) id then Some e else Some c
         | None => None
         end)
  | Rejected m => set_error s (Some m)
  end.

Definition clearError (s : state) : state := set_error s None.

End AgentStore.

(* ================================================================== *)
(** * Properties of the queue *)

Module QueueProofs.
Import ZSet CommandQueue Pollers.
Local Open Scope string_scope.

(** Two commands for agent ["agent-1"]: ["cmd-A"] with priority 1,
    pushed at epoch second 1700000000, then ["cmd-B"] with priority 0,
    pushed 1000001 seconds (about 11.6 days) later. *)
Definition q_priority : store :=
  push_command
    (push_command empty_store "agent-1" "cmd-A" 1 1700000000)
    "agent-1" "cmd-B" 0 1701000001.

(** Two commands of equal priority 5, ["cmd-A"] pushed one second
    before ["cmd-B"]. *)
Definition q_equal : store :=
  push_command
    (push_command empty_store "agent-1" "cmd-A" 5 1700000000)
    "agent-1" "cmd-B" 5 1700000001.

(** C1 (code_bug): with [score = priority * 1000000 + time.time()] the
    timestamp is whole epoch seconds, so a priority step is worth only
    1000000 seconds: the lower-priority ["cmd-B"], pushed 1000001 seconds
    after the higher-priority ["cmd-A"], is popped first. *)
Theorem pop_lower_priority_first :
  fst (pop_command q_priority "agent-1") = Some "cmd-B"
  /\ fst (pop_command (snd (pop_command q_priority "agent-1")) "agent-1")
     = Some "cmd-A".
Proof. split; vm_compute; reflexivity. Qed.

(** C2 (code_bug): [ZPOPMAX] takes the largest score and the insertion
    time is added to it, so among equal priorities the later insertion is
    popped first (LIFO, not FIFO). *)
Theorem pop_equal_priority_lifo :
  fst (pop_command q_equal "agent-1") = Some "cmd-B"
  /\ fst (pop_command (snd (pop_command q_equal "agent-1")) "agent-1")
     = Some "cmd-A".
Proof. split; vm_compute; reflexivity. Qed.

(** C10: [pop_command] on an agent whose queue is empty returns [None]
    and leaves the store as it was. *)
Theorem pop_command_empty (st : store) (agent_id : string)
    (Hempty : st agent_id = []) :
  pop_command st agent_id = (None, st).
Proof.
  unfold pop_command, zpopmax_key. rewrite Hempty. reflexivity.
Qed.

Lemma pop_command_empty_witness :
  empty_store "agent-1" = []
  /\ pop_command empty_store "agent-1" = (None, empty_store).
Proof.
  split; [reflexivity | apply (pop_command_empty empty_store "agent-1");
  reflexivity].
Defined.

(** ZPOPMAX on a one-element set. *)
Lemma zpopmax_key_single (st : store) (agent_id : string) (c : member)
    (s : Z) :
  st agent_id = [(c, s)] ->
  exists st', zpopmax_key st agent_id = (Some (c, s), st')
              /\ st' agent_id = [].
Proof.
  intros H. unfold zpopmax_key. rewrite H. simpl.
  eexists; split; [reflexivity |].
  unfold upd, zrem. simpl. rewrite !String.eqb_refl. reflexivity.
Qed.

Definition holds (c : member) (s : Z) (t : call) : Prop :=
  t = Replied (Some (c, s)) \/ t = Returned (Some c).

Definition got_nothing (t : call) : Prop :=
  t = Start \/ t = Replied None \/ t = Returned None.

(** Along any interleaving: either nobody has popped yet and the command
    is still queued, or the queue is empty and exactly one caller holds
    the command. *)
Definition pop_inv (agent_id : string) (c : member) (s : Z)
    (cfg : config) : Prop :=
  (c_store cfg agent_id = [(c, s)] /\ c_t1 cfg = Start /\ c_t2 cfg = Start)
  \/ (c_store cfg agent_id = []
      /\ ((holds c s (c_t1 cfg) /\ got_nothing (c_t2 cfg))
          \/ (got_nothing (c_t1 cfg) /\ holds c s (c_t2 cfg)))).

Lemma zpopmax_key_empty (st : store) (agent_id : string) r st' :
  st agent_id = [] -> zpopmax_key st agent_id = (r, st') ->
  r = None /\ st' = st.
Proof.
  intros H E. unfold zpopmax_key in E. rewrite H in E. simpl in E.
  inversion E; auto.
Qed.

Lemma pop_inv_step agent_id c s cfg cfg' :
  pop_inv agent_id c s cfg -> tstep agent_id cfg cfg' ->
  pop_inv agent_id c s cfg'.
Proof.
  unfold pop_inv, holds, got_nothing.
  intros Hinv Hst. inversion Hst; subst; simpl in *.
  - destruct Hinv as [(Hq & _ & Ht2) | (Hq & Hh)].
    + destruct (zpopmax_key_single _ _ _ _ Hq) as (st2 & Hp & Hq2).
      rewrite H in Hp. inversion Hp; subst.
      right. split; [assumption | left; split; auto].
    + destruct (zpopmax_key_empty _ _ _ _ Hq H); subst.
      right. split; [assumption |].
      destruct Hh as [([E|E] & _) | (_ & Ht2)]; try discriminate.
      right. split; auto.
  - destruct Hinv as [(Hq & E & _) | (Hq & Hh)]; [discriminate |].
    right. split; [assumption |].
    destruct Hh as [([E|E] & Ht2) | ([E|[E|E]] & Ht2)]; try discriminate.
    + inversion E; subst. left. split; auto.
    + inversion E; subst. right. split; auto.
  - destruct Hinv as [(Hq & Ht1 & _) | (Hq & Hh)].
    + destruct (zpopmax_key_single _ _ _ _ Hq) as (st2 & Hp & Hq2).
      rewrite H in Hp. inversion Hp; subst.
      right. split; [assumption | right; split; auto].
    + destruct (zpopmax_key_empty _ _ _ _ Hq H); subst.
      right. split; [assumption |].
      destruct Hh as [(Ht1 & _) | (_ & [E|E])]; try discriminate.
      left. split; auto.
  - destruct Hinv as [(Hq & _ & E) | (Hq & Hh)]; [discriminate |].
    right. split; [assumption |].
    destruct Hh as [(Ht1 & [E|[E|E]]) | (Ht1 & [E|E])]; try discriminate.
    + inversion E; subst. left. split; auto.
    + inversion E; subst. right. split; auto.
Qed.

Lemma pop_inv_reachable agent_id c s c0 cfg :
  pop_inv agent_id c s c0 -> reachable agent_id c0 cfg ->
  pop_inv agent_id c s cfg.
Proof.
  intros H0 R. induction R; eauto using pop_inv_step.
Qed.

(** C3: two callers run [pop_command] concurrently against an agent
    queue holding exactly one command.  In every interleaving that lets
    both calls return, exactly one returns the command, the other returns
    [None], and the queue is left empty. *)
Theorem concurrent_pop_single (st : store) (agent_id : string)
    (c : member) (s : Z) (Hone : st agent_id = [(c, s)])
    (st' : store) (v1 v2 : option member)
    (Hrun : reachable agent_id (mkConfig st Start Start)
              (mkConfig st' (Returned v1) (Returned v2))) :
  ((v1 = Some c /\ v2 = None) \/ (v1 = None /\ v2 = Some c))
  /\ st' agent_id = [].
Proof.
  assert (Hinv : pop_inv agent_id c s (mkConfig st' (Returned v1) (Returned v2))).
  { apply (pop_inv_reachable agent_id c s (mkConfig st Start Start)); auto.
    left. simpl. auto. }
  unfold pop_inv, holds, got_nothing in Hinv. simpl in Hinv.
  destruct Hinv as [(_ & E & _) | (Hq & Hh)]; [discriminate |].
  split; [| assumption].
  destruct Hh as [([E1|E1] & [E2|[E2|E2]]) | ([E1|[E1|E1]] & [E2|E2])];
    try discriminate; inversion E1; inversion E2; auto.
Qed.

(** One interleaving: caller 2's ZPOPMAX runs first, then caller 1's,
    then both decode. *)
Lemma concurrent_pop_single_witness :
  let st := push_command empty_store "agent-1" "cmd-A" 50 1700000000 in
  st "agent-1" = [("cmd-A", 1750000000%Z)]
  /\ reachable "agent-1" (mkConfig st Start Start)
       (mkConfig (upd st "agent-1" []) (Returned None)
          (Returned (Some "cmd-A")))
  /\ (((None : option member) = Some "cmd-A" /\ Some "cmd-A" = None)
      \/ ((None : option member) = None /\ Some "cmd-A" = Some "cmd-A"))
  /\ upd st "agent-1" [] "agent-1" = [].
Proof.
  intros st.
  assert (Hq : st "agent-1" = [("cmd-A", 1750000000%Z)]) by reflexivity.
  assert (Hr : reachable "agent-1" (mkConfig st Start Start)
       (mkConfig (upd st "agent-1" []) (Returned None)
          (Returned (Some "cmd-A")))).
  { eapply R_step; [eapply R_step; [eapply R_step; [eapply R_step |] |] |].
    - apply R_refl.
    - apply T2_pop. reflexivity.
    - apply T1_pop. reflexivity.
    - apply T1_decode.
    - apply (T2_decode "agent-1" (upd st "agent-1" []) (Returned None)
               (Some ("cmd-A", 1750000000%Z))). }
  split; [exact Hq | split; [exact Hr |]].
  exact (concurrent_pop_single st "agent-1" "cmd-A" 1750000000%Z Hq
           (upd st "agent-1" []) None (Some "cmd-A") Hr).
Defined.

End QueueProofs.

(* ================================================================== *)
(** * Properties of the command state machine *)

Module MachineProofs.
Import Commands Creation.

(** The fields fixed at creation are never written by a transition. *)
Lemma transition_fixed (c c' : command) (e : event) :
  transition c e = inl c' ->
  max_retries c' = max_retries c /\ created_at c' = created_at c
  /\ timeout_s c' = timeout_s c.
Proof.
  unfold transition. destruct (is_terminal c); [discriminate |].
  destruct (status c), e; try discriminate;
    try destruct (Nat.ltb (retry_count c) (max_retries c));
    intros H; inversion H; subst; simpl; auto.
Qed.

Lemma run_op_fixed (c : command) (o : op) :
  max_retries (run_op c o) = max_retries c
  /\ created_at (run_op c o) = created_at c
  /\ timeout_s (run_op c o) = timeout_s c.
Proof.
  destruct o as [e | now]; simpl.
  - unfold update_status. destruct (transition c e) eqn:E; simpl; auto.
    apply transition_fixed with e; assumption.
  - unfold sweep_one. destruct (status c); auto;
      destruct (overdue now c); auto; unfold update_status;
      destruct (transition c (Deadline_exceeded now)) eqn:E; simpl; auto;
      apply transition_fixed with (Deadline_exceeded now); assumption.
Qed.

(** Nothing moves a record out of a terminal state. *)
Lemma run_op_terminal (c : command) (o : op) :
  is_terminal c = true -> run_op c o = c.
Proof.
  intros Ht. destruct o as [e | now]; simpl.
  - unfold update_status, transition. rewrite Ht. reflexivity.
  - unfold sweep_one, is_terminal in *.
    destruct (status c); try discriminate; reflexivity.
Qed.

Lemma run_terminal (c : command) (ops : list op) :
  is_terminal c = true -> run c ops = c.
Proof.
  revert c. induction ops as [| o ops IH]; intros c Ht; simpl; [reflexivity |].
  unfold run in IH. rewrite (run_op_terminal c o Ht). apply IH; assumption.
Qed.

(** The retry budget bound is kept by every transition. *)
Lemma transition_retry_bound (c c' : command) (e : event) :
  (retry_count c <= max_retries c)%nat -> transition c e = inl c' ->
  (retry_count c' <= max_retries c')%nat.
Proof.
  intros Hb. unfold transition. destruct (is_terminal c); [discriminate |].
  destruct (status c), e; try discriminate;
    try (destruct (Nat.ltb (retry_count c) (max_retries c)) eqn:Hl;
         [apply Nat.ltb_lt in Hl |]);
    intros H; inversion H; subst; simpl; lia.
Qed.

Lemma run_op_retry_bound (c : command) (o : op) :
  (retry_count c <= max_retries c)%nat ->
  (retry_count (run_op c o) <= max_retries (run_op c o))%nat.
Proof.
  intros Hb. destruct o as [e | now]; simpl.
  - unfold update_status. destruct (transition c e) eqn:E; simpl; auto.
    eapply transition_retry_bound; eauto.
  - unfold sweep_one. destruct (status c); auto;
      destruct (overdue now c); auto; unfold update_status;
      destruct (transition c (Deadline_exceeded now)) eqn:E; simpl; auto;
      eapply transition_retry_bound; eauto.
Qed.

Lemma run_retry_bound (c : command) (ops : list op) :
  (retry_count c <= max_retries c)%nat ->
  (retry_count (run c ops) <= max_retries (run c ops))%nat.
Proof.
  revert c. induction ops as [| o ops IH]; intros c Hb; simpl; [assumption |].
  apply IH. apply run_op_retry_bound. assumption.
Qed.

(** A deadline with the budget used up finalizes the record. *)
Lemma deadline_exhausted (c : command) (now : Z) :
  retry_count c = max_retries c ->
  (status c = pending \/ status c = executing) ->
  status (fst (update_status c (Deadline_exceeded now))) = timeout
  /\ is_terminal (fst (update_status c (Deadline_exceeded now))) = true.
Proof.
  intros Hr Hs. unfold update_status, transition.
  assert (Hnt : is_terminal c = false)
    by (unfold is_terminal; destruct Hs as [E | E]; rewrite E; reflexivity).
  rewrite Hnt. rewrite Hr, Nat.ltb_irrefl.
  destruct Hs as [E | E]; rewrite E; simpl; unfold is_terminal; simpl;
    rewrite Hr, Nat.leb_refl; auto.
Qed.

End MachineProofs.

Module MonitorProofs.
Import Commands Creation MachineProofs.

Lemma overdue_run_op (c : command) (o : op) (t : Z) :
  overdue t (run_op c o) = overdue t c.
Proof.
  unfold overdue. destruct (run_op_fixed c o) as (_ & -> & ->). reflexivity.
Qed.

(** One sweep past the deadline with budget left: back to pending, one
    more retry. *)
Lemma sweep_retry (c : command) (now : Z) :
  status c = pending -> overdue now c = true ->
  (retry_count c < max_retries c)%nat ->
  status (sweep_one now c) = pending
  /\ retry_count (sweep_one now c) = S (retry_count c).
Proof.
  intros Hs Ho Hl. unfold sweep_one. rewrite Hs, Ho.
  unfold update_status, transition.
  assert (Hnt : is_terminal c = false)
    by (unfold is_terminal; rewrite Hs; reflexivity).
  rewrite Hnt, Hs. apply Nat.ltb_lt in Hl. rewrite Hl. simpl. auto.
Qed.

Lemma sweeps_pending (ts : list Z) (c : command) :
  status c = pending -> Forall (fun t => overdue t c = true) ts ->
  (retry_count c + List.length ts <= max_retries c)%nat ->
  status (run c (map Sweep ts)) = pending
  /\ retry_count (run c (map Sweep ts)) = (retry_count c + List.length ts)%nat.
Proof.
  revert c. induction ts as [| t ts IH]; intros c Hs Hall Hb; simpl.
  - rewrite Nat.add_0_r. auto.
  - inversion Hall as [| ? ? Ht Hrest]; subst. simpl in Hb.
    destruct (sweep_retry c t Hs Ht) as [Hs1 Hr1]; [lia |].
    destruct (IH (sweep_one t c)) as [IH1 IH2]; auto.
    + eapply Forall_impl; [| exact Hrest]. intros t' Ht'.
      pose proof (overdue_run_op c (Sweep t) t') as E. simpl in E.
      rewrite E. exact Ht'.
    + rewrite Hr1. pose proof (run_op_fixed c (Sweep t)) as (Hm & _ & _).
      simpl in Hm. rewrite Hm. lia.
    + unfold run in *. simpl in *. split; [exact IH1 | rewrite IH2, Hr1; lia].
Qed.

Lemma run_max_retries (c : command) (ops : list op) :
  max_retries (run c ops) = max_retries c.
Proof.
  revert c. induction ops as [| o ops IH]; intros c; [reflexivity |].
  unfold run in *. simpl. rewrite IH. apply run_op_fixed.
Qed.

Lemma run_overdue (c : command) (ops : list op) (t : Z) :
  overdue t (run c ops) = overdue t c.
Proof.
  revert c. induction ops as [| o ops IH]; intros c; [reflexivity |].
  unfold run in *. simpl. rewrite IH. apply overdue_run_op.
Qed.

Lemma run_app (c : command) (ops1 ops2 : list op) :
  run c (ops1 ++ ops2) = run (run c ops1) ops2.
Proof. unfold run. apply fold_left_app. Qed.

Lemma Forall_firstn_of {A} (P : A -> Prop) (k : nat) (l : list A) :
  Forall P l -> Forall P (firstn k l).
Proof.
  revert l. induction k as [| k IH]; intros l H; simpl; [constructor |].
  destruct l; [constructor |]. inversion H; subst. constructor; auto.
Qed.

End MonitorProofs.

Module MachineClaims.
Import Commands Creation MachineProofs MonitorProofs.
Local Open Scope string_scope.

Lemma sweep_final (c : command) (now : Z) :
  status c = pending -> overdue now c = true ->
  retry_count c = max_retries c ->
  status (sweep_one now c) = timeout
  /\ retry_count (sweep_one now c) = retry_count c
  /\ is_terminal (sweep_one now c) = true.
Proof.
  intros Hs Ho Hr. unfold sweep_one. rewrite Hs, Ho.
  destruct (deadline_exhausted c now Hr (or_introl Hs)) as [H1 H2].
  split; [exact H1 | split; [| exact H2]].
  unfold update_status, transition.
  assert (Hnt : is_terminal c = false)
    by (unfold is_terminal; rewrite Hs; reflexivity).
  rewrite Hnt, Hs.
  replace (Nat.ltb (retry_count c) (max_retries c)) with false
    by (rewrite Hr; symmetry; apply Nat.ltb_irrefl).
  reflexivity.
Qed.

(** C4: a pending command with [retry_count = 0] and [max_retries = r]
    that no worker claims, swept [r + 1] times, each time past its
    deadline: after each of the first [r] sweeps it is pending again with
    one more retry; the last sweep finalizes it to [timeout] with
    [retry_count = r]; after that no operation makes it pending again. *)
Theorem sweeps_until_timeout (c0 : command) (ts : list Z)
    (Hs : status c0 = pending) (Hr : retry_count c0 = 0%nat)
    (Hlen : List.length ts = S (max_retries c0))
    (Hdue : Forall (fun t => overdue t c0 = true) ts) :
  (forall k, (k <= max_retries c0)%nat ->
     status (run c0 (map Sweep (firstn k ts))) = pending
     /\ retry_count (run c0 (map Sweep (firstn k ts))) = k)
  /\ status (run c0 (map Sweep ts)) = timeout
  /\ retry_count (run c0 (map Sweep ts)) = max_retries c0
  /\ (forall ops, status (run (run c0 (map Sweep ts)) ops) <> pending).
Proof.
  assert (Hpre : forall k, (k <= max_retries c0)%nat ->
     status (run c0 (map Sweep (firstn k ts))) = pending
     /\ retry_count (run c0 (map Sweep (firstn k ts))) = k).
  { intros k Hk.
    assert (Hl : List.length (firstn k ts) = k)
      by (apply firstn_length_le; lia).
    destruct (sweeps_pending (firstn k ts) c0 Hs
                (Forall_firstn_of _ k ts Hdue)) as [H1 H2];
      [rewrite Hl, Hr; lia |].
    rewrite H2, Hl, Hr. auto. }
  assert (Hne : ts <> []) by (intros E; rewrite E in Hlen; discriminate).
  destruct (exists_last Hne) as (pre & a & E).
  assert (Hlp : List.length pre = max_retries c0)
    by (rewrite E, length_app in Hlen; simpl in Hlen; lia).
  assert (Hfp : firstn (max_retries c0) ts = pre)
    by (rewrite E, <- Hlp, firstn_app, Nat.sub_diag, firstn_all; simpl;
        apply app_nil_r).
  destruct (Hpre (max_retries c0) (le_n _)) as [Hs1 Hr1].
  rewrite Hfp in Hs1, Hr1.
  assert (Ha : overdue a (run c0 (map Sweep pre)) = true).
  { rewrite run_overdue. rewrite E in Hdue.
    apply Forall_app in Hdue. destruct Hdue as [_ Hd].
    inversion Hd; assumption. }
  assert (Hm : retry_count (run c0 (map Sweep pre))
               = max_retries (run c0 (map Sweep pre)))
    by (rewrite run_max_retries; exact Hr1).
  destruct (sweep_final _ a Hs1 Ha Hm) as (F1 & F2 & F3).
  assert (Hlast : run c0 (map Sweep ts)
                  = sweep_one a (run c0 (map Sweep pre)))
    by (rewrite E, map_app, run_app; reflexivity).
  split; [exact Hpre |].
  rewrite Hlast. split; [exact F1 |]. split; [rewrite F2; exact Hr1 |].
  intros ops. rewrite (run_terminal _ ops F3), F1. discriminate.
Qed.

(** C5: every record written at creation and then put through any
    sequence of events and sweeps satisfies [retry_count <= max_retries];
    when the budget is used up, a deadline finalizes the record to the
    terminal [timeout] instead of retrying. *)
Theorem retry_budget_invariant (nid : nat) (r : create_request) (now : Z)
    (ops : list op) :
  let c := run (new_command nid r now) ops in
  (retry_count c <= max_retries c)%nat
  /\ (forall now', retry_count c = max_retries c ->
        (status c = pending \/ status c = executing) ->
        status (fst (update_status c (Deadline_exceeded now'))) = timeout
        /\ is_terminal (fst (update_status c (Deadline_exceeded now')))
           = true).
Proof.
  intros c. split.
  - apply run_retry_bound. simpl. lia.
  - intros now' Hr Hs. apply deadline_exhausted; assumption.
Qed.

(** C6: on a record in a terminal state every event is rejected with an
    [InvalidTransitionError] and the stored record stays as it was (in
    particular [completed_at] and [output]); the monitor does not touch it
    either. *)
Theorem terminal_rejects (c : command) (Ht : is_terminal c = true) :
  (forall e, exists reason,
     update_status c e = (c, Some (InvalidTransitionError reason)))
  /\ (forall now, sweep_one now c = c).
Proof.
  split.
  - intros e. unfold update_status, transition. rewrite Ht. eexists.
    reflexivity.
  - intros now. exact (run_op_terminal c (Sweep now) Ht).
Qed.

(** C7: [retry] succeeds exactly when the status is [error] or [timeout]
    and [retry_count < max_retries]; it then sets the record to pending
    with one more retry and cleared progress in the same update; otherwise
    it is rejected and the record is unchanged. *)
Theorem retry_guard (c : command) (now : Z) :
  (((status c = error \/ status c = timeout)
    /\ (retry_count c < max_retries c)%nat) ->
   exists c', update_status c (Retry now) = (c', None)
     /\ status c' = pending /\ retry_count c' = S (retry_count c)
     /\ progress c' = 0%Z /\ max_retries c' = max_retries c)
  /\ (~ ((status c = error \/ status c = timeout)
         /\ (retry_count c < max_retries c)%nat) ->
      exists err, update_status c (Retry now) = (c, Some err)).
Proof.
  split.
  - intros [Hs Hl].
    assert (Hnt : is_terminal c = false).
    { unfold is_terminal. apply Nat.leb_gt in Hl.
      destruct Hs as [E | E]; rewrite E; exact Hl. }
    unfold update_status, transition. rewrite Hnt.
    apply Nat.ltb_lt in Hl.
    destruct Hs as [E | E]; rewrite E, Hl; eexists; simpl;
      repeat split; reflexivity.
  - intros Hn. unfold update_status, transition.
    destruct (is_terminal c); [eexists; reflexivity |].
    destruct (status c) eqn:Es; try (eexists; reflexivity);
      destruct (Nat.ltb (retry_count c) (max_retries c)) eqn:Hl;
      try (eexists; reflexivity);
      apply Nat.ltb_lt in Hl; exfalso; apply Hn; auto.
Qed.

(** The scenario of the spec: priority 50, timeout 5 s, two retries, no
    worker; sweeps at 10, 20 and 30 seconds after creation. *)
Definition scenario_req : create_request :=
  mkRequest "agent-1" "task" "{}" (Some 50%Z) (Some 5%Z) (Some 2%nat).

Definition scenario_cmd : command := new_command 1 scenario_req 1700000000.

Definition scenario_sweeps : list Z := [1700000010; 1700000020; 1700000030]%Z.

Lemma sweeps_until_timeout_witness :
  status scenario_cmd = pending /\ retry_count scenario_cmd = 0%nat
  /\ List.length scenario_sweeps = S (max_retries scenario_cmd)
  /\ Forall (fun t => overdue t scenario_cmd = true) scenario_sweeps
  /\ status (run scenario_cmd (map Sweep scenario_sweeps)) = timeout
  /\ retry_count (run scenario_cmd (map Sweep scenario_sweeps)) = 2%nat.
Proof.
  assert (Hall : Forall (fun t => overdue t scenario_cmd = true)
                   scenario_sweeps) by (repeat constructor).
  destruct (sweeps_until_timeout scenario_cmd scenario_sweeps eq_refl eq_refl
              eq_refl Hall) as (_ & H2 & H3 & _).
  repeat split; try reflexivity; assumption.
Defined.

Lemma retry_budget_invariant_witness :
  let c := run scenario_cmd [Ev (Claim 1700000001); Sweep 1700000010;
                             Sweep 1700000020] in
  retry_count c = 2%nat /\ max_retries c = 2%nat /\ status c = pending
  /\ status (fst (update_status c (Deadline_exceeded 1700000030))) = timeout.
Proof.
  intros c.
  assert (Hr : retry_count c = max_retries c) by reflexivity.
  assert (Hs : status c = pending \/ status c = executing)
    by (left; reflexivity).
  destruct (retry_budget_invariant 1 scenario_req 1700000000
              [Ev (Claim 1700000001); Sweep 1700000010; Sweep 1700000020])
    as [_ H].
  destruct (H 1700000030%Z Hr Hs) as [H1 _].
  repeat split; try reflexivity; exact H1.
Defined.

Lemma terminal_rejects_witness :
  let c := run scenario_cmd [Ev (Claim 1700000001);
                             Ev (Result_success 1700000002 (Some "done"))] in
  is_terminal c = true
  /\ exists reason, update_status c (Result_success 1700000009 (Some "late"))
                    = (c, Some (InvalidTransitionError reason)).
Proof.
  intros c.
  assert (Ht : is_terminal c = true) by reflexivity.
  split; [exact Ht |].
  exact (proj1 (terminal_rejects c Ht) _).
Defined.

Lemma retry_guard_witness :
  let c := run scenario_cmd [Ev (Claim 1700000001);
                             Ev (Result_error 1700000002 (Some "boom"))] in
  status c = error /\ (retry_count c < max_retries c)%nat
  /\ exists c', update_status c (Retry 1700000003) = (c', None)
       /\ status c' = pending /\ retry_count c' = 1%nat
       /\ progress c' = 0%Z /\ max_retries c' = max_retries c.
Proof.
  intros c.
  assert (Hs : status c = error) by reflexivity.
  assert (Hl : (retry_count c < max_retries c)%nat) by (vm_compute; lia).
  split; [exact Hs | split; [exact Hl |]].
  exact (proj1 (retry_guard c 1700000003) (conj (or_introl Hs) Hl)).
Defined.

End MachineClaims.

(* ================================================================== *)
(** * Properties of the group coordinator *)

Module FanoutProofs.
Import Fanout.

Definition mle (a b : group_member) : Prop :=
  (member_priority a <= member_priority b)%Z.

Lemma insert_member_perm (m : group_member) (l : list group_member) :
  Permutation (m :: l) (insert_member m l).
Proof.
  induction l as [| x r IH]; simpl; [reflexivity |].
  destruct (member_priority m <? member_priority x)%Z; [reflexivity |].
  rewrite perm_swap. constructor. exact IH.
Qed.

Lemma insert_member_hd (a m : group_member) (l : list group_member) :
  mle a m -> HdRel mle a l -> HdRel mle a (insert_member m l).
Proof.
  intros Ham Hl. destruct l as [| x r]; simpl.
  - constructor. exact Ham.
  - destruct (member_priority m <? member_priority x)%Z; constructor;
      [exact Ham | inversion Hl; assumption].
Qed.

Lemma insert_member_sorted (m : group_member) (l : list group_member) :
  Sorted mle l -> Sorted mle (insert_member m l).
Proof.
  induction l as [| x r IH]; intros Hs; simpl.
  - repeat constructor.
  - destruct (member_priority m <? member_priority x)%Z eqn:Hlt.
    + apply Z.ltb_lt in Hlt. constructor; [exact Hs |].
      constructor. unfold mle. lia.
    + apply Z.ltb_ge in Hlt. inversion Hs as [| ? ? Hr Hhd]; subst.
      constructor; [apply IH; exact Hr |].
      apply insert_member_hd; [unfold mle; lia | exact Hhd].
Qed.

Lemma sort_members_acc (ms acc : list group_member) :
  Sorted mle acc ->
  Sorted mle (fold_left (fun acc m => insert_member m acc) ms acc)
  /\ Permutation (acc ++ ms)
       (fold_left (fun acc m => insert_member m acc) ms acc).
Proof.
  revert acc. induction ms as [| m ms IH]; intros acc Hs; simpl.
  - rewrite app_nil_r. auto.
  - destruct (IH (insert_member m acc)) as [H1 H2];
      [apply insert_member_sorted; exact Hs |].
    split; [exact H1 |].
    rewrite <- H2. rewrite <- (insert_member_perm m acc).
    apply Permutation_sym, Permutation_middle.
Qed.

Lemma sort_members_spec (ms : list group_member) :
  Sorted mle (sort_members ms) /\ Permutation ms (sort_members ms).
Proof. apply (sort_members_acc ms []). constructor. Qed.

Lemma Sorted_app_l {A} (R : A -> A -> Prop) (l1 l2 : list A) :
  Sorted R (l1 ++ l2) -> Sorted R l1.
Proof.
  induction l1 as [| x r IH]; intros H; simpl in *; [constructor |].
  inversion H as [| ? ? Hr Hhd]; subst. constructor; [apply IH; exact Hr |].
  destruct r; constructor. inversion Hhd; assumption.
Qed.

(** What the sequential pipeline does with any list of members. *)
Lemma run_sequential_spec execute feed (ms : list group_member) input :
  let res := run_sequential execute feed ms input in
  (exists rest, ms = map fst (snd res) ++ rest)
  /\ (fst res = completed -> map fst (snd res) = ms
                            /\ Forall (fun e => is_ok (snd e) = true) (snd res))
  /\ (fst res = failed ->
      exists pre m msg, snd res = pre ++ [(m, Failed msg)]
        /\ Forall (fun e => is_ok (snd e) = true) pre)
  /\ Forall (fun e => exists i, snd e = execute (fst e) i) (snd res).
Proof.
  revert input. induction ms as [| m ms IH]; intros input; simpl.
  - split; [exists []; reflexivity |]. split; [auto |].
    split; [discriminate | constructor].
  - destruct (execute m input) as [out | msg] eqn:Ex.
    + specialize (IH (feed input out)).
      destruct (run_sequential execute feed ms (feed input out))
        as [st log] eqn:Er.
      simpl in *. destruct IH as ((rest & Hrest) & Hc & Hf & Hx).
      split; [exists rest; simpl; rewrite Hrest at 1; reflexivity |].
      split; [intros E; destruct (Hc E) as [H1 H2]; simpl; rewrite H1;
              split; [reflexivity | constructor; [reflexivity | exact H2]] |].
      split.
      * intros E. destruct (Hf E) as (pre & m' & msg & Hl & Hp).
        exists ((m, Ok out) :: pre), m', msg. rewrite Hl.
        split; [reflexivity | constructor; [reflexivity | exact Hp]].
      * constructor; [exists input; simpl; symmetry; exact Ex | exact Hx].
    + simpl. split; [exists ms; reflexivity |]. split; [discriminate |].
      split.
      * intros _. exists [], m, msg. split; [reflexivity | constructor].
      * constructor; [exists input; simpl; symmetry; exact Ex | constructor].
Qed.

(** C8: in sequential mode the members are dispatched one at a time in
    ascending priority: the dispatched members form a prefix of the
    members sorted by priority (a permutation of the group).  The group
    fails exactly when a member fails; that member is the last one
    dispatched, the members after it are never dispatched, and the
    outputs of the members before it stay in the result. *)
Theorem sequential_group_spec execute feed (ms : list group_member) input :
  let res := execute_group_sequential execute feed ms input in
  Permutation ms (sort_members ms)
  /\ Sorted mle (map fst (snd res))
  /\ (exists rest, sort_members ms = map fst (snd res) ++ rest)
  /\ (fst res = failed <->
      exists pre m msg, snd res = pre ++ [(m, Failed msg)])
  /\ (fst res = failed ->
      exists pre m msg rest,
        snd res = pre ++ [(m, Failed msg)]
        /\ Forall (fun e => is_ok (snd e) = true) pre
        /\ sort_members ms = map fst pre ++ m :: rest)
  /\ Forall (fun e => exists i, snd e = execute (fst e) i) (snd res).
Proof.
  intros res. unfold res, execute_group_sequential. clear res.
  destruct (sort_members_spec ms) as [Hsort Hperm].
  destruct (run_sequential_spec execute feed (sort_members ms) input)
    as ((rest & Hrest) & Hc & Hf & Hx).
  set (res := run_sequential execute feed (sort_members ms) input) in *.
  split; [exact Hperm |].
  split; [apply Sorted_app_l with (l2 := rest); rewrite <- Hrest;
          exact Hsort |].
  split; [exists rest; exact Hrest |].
  split; [split |].
  - intros E. destruct (Hf E) as (pre & m & msg & Hl & _). eauto.
  - intros (pre & m & msg & Hl). destruct (fst res) eqn:Es; [| reflexivity].
    destruct (Hc eq_refl) as [_ Hok]. rewrite Hl in Hok.
    apply Forall_app in Hok. destruct Hok as [_ Hok].
    inversion Hok as [| ? ? Hm _]. discriminate Hm.
  - split; [| exact Hx].
    intros E. destruct (Hf E) as (pre & m & msg & Hl & Hp).
    exists pre, m, msg, rest. split; [exact Hl |]. split; [exact Hp |].
    rewrite Hrest, Hl, map_app, <- app_assoc. reflexivity.
Qed.

(** The scenario of the spec: A (priority 1) fails, B (priority 2)
    would succeed; the members are listed B first. *)
Definition member_A : group_member := mkMember "A"%string "agent-A"%string 1.
Definition member_B : group_member := mkMember "B"%string "agent-B"%string 2.

Definition scenario_execute (m : group_member) (input : string) : outcome :=
  if String.eqb (member_id m) "A"%string then Failed "A failed"%string else Ok "B output"%string.

Lemma sequential_group_spec_witness :
  execute_group_sequential scenario_execute (fun i o => o)
    [member_B; member_A] "input"%string
  = (failed, [(member_A, Failed "A failed"%string)])
  /\ (exists rest, sort_members [member_B; member_A]
                   = map fst [(member_A, Failed "A failed"%string)] ++ rest).
Proof.
  assert (E : execute_group_sequential scenario_execute (fun i o => o)
                [member_B; member_A] "input"%string
              = (failed, [(member_A, Failed "A failed"%string)])) by reflexivity.
  split; [exact E |].
  destruct (sequential_group_spec scenario_execute (fun i o => o)
              [member_B; member_A] "input"%string) as (_ & _ & H & _).
  rewrite E in H. exact H.
Defined.

End FanoutProofs.

(* ================================================================== *)
(** * Properties of command creation *)

Module CreationProofs.
Import Commands Creation.

Lemma validate_none_iff (r : create_request) :
  validate r = None <-> valid_request r.
Proof.
  unfold validate, valid_request.
  destruct (existsb (String.eqb (req_type r)) command_types) eqn:Ht;
  [| simpl; split; [discriminate |]; intros (Hin & _);
     assert (Hex : existsb (String.eqb (req_type r)) command_types = true)
       by (apply existsb_exists; exists (req_type r);
           split; [exact Hin | apply String.eqb_refl]);
     rewrite Hex in Ht; discriminate].
  apply existsb_exists in Ht. destruct Ht as (x & Hx & Heq).
  apply String.eqb_eq in Heq. subst x. simpl.
  destruct ((0 <=? req_priority_or_default r)
            && (req_priority_or_default r <=? 100))%Z eqn:Hp; simpl.
  - apply andb_true_iff in Hp. destruct Hp as [Hp1 Hp2].
    apply Z.leb_le in Hp1, Hp2.
    destruct (req_timeout_or_default r <=? 0)%Z eqn:Hto.
    + apply Z.leb_le in Hto. split; [discriminate | intros (_ & _ & H); lia].
    + apply Z.leb_gt in Hto. split; [auto | reflexivity].
  - split; [discriminate |]. intros (_ & [H1 H2] & _).
    apply Z.leb_le in H1, H2. rewrite H1, H2 in Hp. discriminate.
Qed.

(** C9: a creation request outside the valid range (unknown type,
    priority outside [0,100], non-positive timeout) is rejected with a
    [ValidationError] and the record store is unchanged; a valid request
    appends one pending record and returns its id. *)
Theorem create_validates (records : list command) (r : create_request)
    (now : Z) :
  (~ valid_request r ->
   exists err, create records r now = (records, inr err))
  /\ (valid_request r ->
      exists nid, create records r now
                  = (records ++ [new_command nid r now], inl nid)).
Proof.
  pose proof (validate_none_iff r) as Hv. unfold create. split.
  - intros Hn. destruct (validate r) as [err |] eqn:E.
    + exists err. reflexivity.
    + exfalso. apply Hn, Hv. reflexivity.
  - intros Hy. apply Hv in Hy. rewrite Hy. eexists. reflexivity.
Qed.

Lemma create_validates_witness :
  let bad := mkRequest "agent-1" "task" "{}" (Some 101%Z) None None in
  let good := mkRequest "agent-1" "task" "{}" (Some 100%Z) None None in
  create [] bad 1700000000 = ([], inr (ValidationError "priority must be in [0,100]"))
  /\ (exists err, create [] bad 1700000000 = ([], inr err))
  /\ (exists nid, create [] good 1700000000
                  = ([new_command nid good 1700000000], inl nid)).
Proof.
  intros bad good.
  assert (Hb : ~ valid_request bad).
  { unfold valid_request, bad, req_priority_or_default. simpl.
    intros (_ & [_ H] & _). lia. }
  assert (Hg : valid_request good).
  { unfold valid_request, command_types, good, req_priority_or_default,
      req_timeout_or_default. simpl.
    split; [right; right; left; reflexivity | lia]. }
  split; [reflexivity |].
  split; [exact (proj1 (create_validates [] bad 1700000000) Hb) |].
  exact (proj2 (create_validates [] good 1700000000) Hg).
Defined.

End CreationProofs.

(* ================================================================== *)
(** * Further properties of the queue code *)

Module QueueExtras.
Import ZSet CommandQueue.





Lemma upd_same (st : store) (a : string) (z : zset) : upd st a z a = z.
Proof. unfold upd. rewrite String.eqb_refl. reflexivity. Qed.

Lemma upd_other (st : store) (a b : string) (z : zset) :
  b <> a -> upd st a z b = st b.
Proof.
  intros H. unfold upd. apply String.eqb_neq in H. rewrite H. reflexivity.
Qed.














Lemma pop_one (st : store) (a : string) (x : member) (sx : Z) :
  st a = [(x, sx)] ->
  fst (pop_command st a) = Some x /\ snd (pop_command st a) a = [].
Proof.
  intros E. unfold pop_command, zpopmax_key, zpopmax. rewrite E.
  cbn -[upd]. rewrite upd_same. unfold zrem. simpl.
  rewrite String.eqb_refl. auto.
Qed.






(** Pushing a command onto an agent's empty queue and popping gives the
    command back and leaves the whole store as it was. *)
Theorem push_pop_roundtrip (st : store) (a : string) (command : member)
    (priority now : Z) (Hempty : st a = []) :
  fst (pop_command (push_command st a command priority now) a)
    = Some command
  /\ forall b, snd (pop_command (push_command st a command priority now) a) b
               = st b.
Proof.
  assert (E : push_command st a command priority now a
              = [(command, priority * 1000000 + now)])
    by (unfold push_command; rewrite upd_same, Hempty; reflexivity).
  destruct (pop_one _ a _ _ E) as [H1 H2]. split; [exact H1 |].
  intros b. destruct (String.eqb b a) eqn:Eb.
  - apply String.eqb_eq in Eb. subst. rewrite H2, Hempty. reflexivity.
  - apply String.eqb_neq in Eb.
    unfold pop_command, zpopmax_key. rewrite E. cbn -[upd].
    rewrite upd_other by exact Eb. unfold push_command.
    apply upd_other. exact Eb.
Qed.

Lemma push_pop_roundtrip_witness :
  fst (pop_command (push_command empty_store "agent-1"%string "cmd-A"%string
                      10 1700000000) "agent-1"%string) = Some "cmd-A"%string.
Proof.
  exact (proj1 (push_pop_roundtrip empty_store "agent-1"%string
                  "cmd-A"%string 10 1700000000 eq_refl)).
Defined.

End QueueExtras.

(* ================================================================== *)
(** * Properties of the commands page *)

Module PageProofs.
Import Commands Creation CommandsPage.
Local Open Scope string_scope.

(** The row actions of the commands page agree with the state machine:
    the retry action is shown exactly when a retry would be accepted,
    the cancel action exactly when a cancel would be accepted, and no
    row shows both. *)
Theorem row_actions_match_transitions (c : command) (now : Z) :
  (shows_retry c = true <-> snd (update_status c (Retry now)) = None)
  /\ (shows_cancel c = true <-> snd (update_status c (Cancel now)) = None)
  /\ shows_retry c && shows_cancel c = false.
Proof.
  unfold shows_retry, shows_cancel, update_status, transition, is_terminal.
  destruct (status c); simpl;
    try (split; [split; [discriminate | intros H; discriminate H] |]);
    try (split; [split; [reflexivity | reflexivity] | reflexivity]);
    try (split; [split; [discriminate | intros H; discriminate H]
                | reflexivity]).
  - destruct (Nat.leb (max_retries c) (retry_count c)) eqn:E.
    + apply Nat.leb_le in E.
      replace (Nat.ltb (retry_count c) (max_retries c)) with false
        by (symmetry; apply Nat.ltb_ge; exact E).
      simpl. repeat split; intros H; discriminate H.
    + apply Nat.leb_gt in E. apply Nat.ltb_lt in E as E'. rewrite E'.
      simpl. repeat split; try reflexivity; intros H; discriminate H.
  - destruct (Nat.leb (max_retries c) (retry_count c)) eqn:E.
    + apply Nat.leb_le in E.
      replace (Nat.ltb (retry_count c) (max_retries c)) with false
        by (symmetry; apply Nat.ltb_ge; exact E).
      simpl. repeat split; intros H; discriminate H.
    + apply Nat.leb_gt in E. apply Nat.ltb_lt in E as E'. rewrite E'.
      simpl. repeat split; try reflexivity; intros H; discriminate H.
Qed.






End PageProofs.

(* ================================================================== *)
(** * Properties of the agent store *)

Module StoreProofs.
Import AgentStore.
Local Open Scope string_scope.


(** Creating an agent whose id is not yet in the list and then deleting
    that id gives back the list as it was. *)
Theorem create_then_delete (s : state) (a : agent)
    (Hfresh : forall b, In b (agents s) -> agent_id b <> agent_id a) :
  agents (fst (deleteAgent (fst (createAgent s (Resolved a))) (agent_id a)
                 (Resolved tt))) = agents s.
Proof.
  simpl. rewrite String.eqb_refl. simpl.
  induction (agents s) as [| b l IH]; simpl; [reflexivity |].
  assert (Hb : agent_id b <> agent_id a) by (apply Hfresh; simpl; auto).
  apply String.eqb_neq in Hb. rewrite Hb. simpl. f_equal.
  apply IH. intros c Hc. apply Hfresh. simpl. auto.
Qed.

Lemma create_then_delete_witness :
  let s := mkState [mkAgent "a1" "alpha" true] [] None false None in
  agents (fst (deleteAgent
                 (fst (createAgent s (Resolved (mkAgent "a2" "beta" false))))
                 "a2" (Resolved tt)))
  = [mkAgent "a1" "alpha" true].
Proof.
  intros s. apply (create_then_delete s (mkAgent "a2" "beta" false)).
  intros b [<- | []]. simpl. discriminate.
Defined.


End StoreProofs.
